(** * mongodb-queue: the lease protocol of [Queue] over a document collection

    A shallow embedding of [src/index.ts].  The class [Queue] keeps no state
    of its own between calls: every method is one call to the MongoDB
    collection it was built on.  The collection is therefore the state, and
    each method is a function from a collection to a result and a collection.

    Conventions of the embedding.
    - Time is the integer number of milliseconds that [Date.now()] returns.
      The source stores [toISOString()] renderings and lets the store compare
      them as strings; for the four-digit years that rendering is meant for,
      the order of the strings is the order of the instants, so the fields
      hold the instant itself.  One method call reads the clock at one
      instant, the argument [clock].
    - [id()] draws sixteen random bytes; the drawn token is the argument
      [tok] of [get].
    - An [ObjectId] is a counter kept by the collection, handed out in
      insertion order; [toString()] is an injective rendering and the
      identifier stands for its own string.
    - Durations (delay, visibility) are whole seconds. *)

From Stdlib Require Import List ZArith Lia Bool String Arith PeanoNat.
Import ListNotations.

Set Implicit Arguments.

Open Scope Z_scope.

(** ** Helper functions of the module *)

Definition time := Z.

(** [now()]: the clock, as a timestamp. *)
Definition now (clock : time) : time := clock.

(** [nowPlusSecs(deltaInSeconds)]: [Date.now() + deltaInSeconds * 1000]. *)
Definition nowPlusSecs (clock : time) (deltaInSeconds : Z) : time :=
  clock + deltaInSeconds * 1000.

(** The operator [??]: the left operand unless it is null or undefined. *)
Definition nullish {A : Type} (o : option A) (dflt : A) : A :=
  match o with
  | Some a => a
  | None => dflt
  end.

(** Optional chaining [opts?.field] on an optional options object. *)
Definition chain {O A : Type} (opts : option O) (field : O -> option A)
  : option A :=
  match opts with
  | Some o => field o
  | None => None
  end.

(** ** Options and configuration *)

Record QueueOptions := mkQueueOptions {
  qo_visibility : option Z;
  qo_delay : option Z
}.

Record QueueAddOptions := mkAddOptions {
  ao_delay : option Z
}.

Record QueueGetOptions := mkGetOptions {
  go_visibility : option Z;
  go_maxTimeMS : option Z
}.

Record QueuePingOptions := mkPingOptions {
  po_visibility : option Z
}.

(** What an operation can throw: the [Error] objects the class builds itself
    (with their message) and the store's duplicate-key error on the unique
    index. *)
Inductive Error :=
| JsError (message : string)
| DuplicateKey (key : string).

Inductive result (A : Type) :=
| Ok (a : A)
| Throw (e : Error).

Arguments Ok {A} a.
Arguments Throw {A} e.

(** The fields of a [Queue] instance that the methods read. *)
Record Queue := mkQueue {
  name : string;
  visibility : Z;
  delay : Z
}.

Inductive Db := MongoDb.

(** The constructor: both handles are required, the options default. *)
Definition constructor (db : option Db) (nm : string)
  (opts : option QueueOptions) : result Queue :=
  match db with
  | None => Throw (JsError "mongodb-queue: provide a mongodb.MongoClient.db")
  | Some _ =>
      if String.eqb nm EmptyString
      then Throw (JsError "mongodb-queue: provide a queue name")
      else Ok {| name := nm;
                 visibility := nullish (chain opts qo_visibility) 30;
                 delay := nullish (chain opts qo_delay) 0 |}
  end.

Definition ObjectId := nat.

Section WithPayload.

Variable Payload : Type.

(** ** Documents and the collection *)

(** [QueueDocument<P>].  [deleted?: null | string] has three shapes:
    absent ([None]), null ([Some None]) and a timestamp. *)
Record QueueDocument := mkDoc {
  _id : ObjectId;
  visible : time;
  payload : Payload;
  ack : option string;
  tries : option nat;
  deleted : option (option time)
}.

(** The collection: its documents in insertion order, the next identifier
    the store hands out, and whether the unique sparse index on [ack] of
    [createIndexes] is in place. *)
Record Collection := mkCollection {
  docs : list QueueDocument;
  next_id : ObjectId;
  ack_unique : bool
}.

Definition with_docs (c : Collection) (l : list QueueDocument) : Collection :=
  {| docs := l; next_id := next_id c; ack_unique := ack_unique c |}.

(** *** Query operators *)

(** [{ field: null }] matches an absent field and a null one. *)
Definition is_null {A : Type} (f : option (option A)) : bool :=
  match f with
  | None => true
  | Some None => true
  | Some (Some _) => false
  end.

(** [{ field: { $exists: true } }]. *)
Definition field_exists {A : Type} (f : option A) : bool :=
  match f with
  | Some _ => true
  | None => false
  end.

(** [{ ack: a }] with a string [a]. *)
Definition ack_is (a : string) (d : QueueDocument) : bool :=
  match ack d with
  | Some b => String.eqb a b
  | None => false
  end.

(** *** Sort order [{ tries: 1, _id: 1 }] *)

(** Ascending order on an optional number: a missing field sorts before
    every number. *)
Definition tries_lt (a b : option nat) : bool :=
  match a, b with
  | None, None => false
  | None, Some _ => true
  | Some _, None => false
  | Some x, Some y => Nat.ltb x y
  end.

Definition tries_eq (a b : option nat) : bool :=
  match a, b with
  | None, None => true
  | Some x, Some y => Nat.eqb x y
  | _, _ => false
  end.

(** [before a b]: [a] comes strictly before [b] in the sort. *)
Definition by_tries_then_id (a b : QueueDocument) : bool :=
  tries_lt (tries a) (tries b)
  || (tries_eq (tries a) (tries b) && Nat.ltb (_id a) (_id b)).

(** The rank the first sort key gives a document: a missing [tries] below
    every number. *)
Definition rank (d : QueueDocument) : nat :=
  match tries d with
  | None => O
  | Some n => S n
  end.

(** No [sort] option: the first match in the collection's own order. *)
Definition natural_order (a b : QueueDocument) : bool := false.

(** *** Store primitives *)

(** The position and value of the document a find-one picks: among the
    documents matching [query], the one no other comes [before]; of equals,
    the earliest in the collection. *)
Fixpoint findOne (query : QueueDocument -> bool)
  (before : QueueDocument -> QueueDocument -> bool)
  (l : list QueueDocument) : option (nat * QueueDocument) :=
  match l with
  | [] => None
  | d :: r =>
      match findOne query before r with
      | None => if query d then Some (O, d) else None
      | Some (i, e) =>
          if query d && negb (before e d) then Some (O, d) else Some (S i, e)
      end
  end.

Fixpoint replaceAt (i : nat) (d' : QueueDocument) (l : list QueueDocument)
  : list QueueDocument :=
  match l, i with
  | [], _ => []
  | _ :: r, O => d' :: r
  | d :: r, S j => d :: replaceAt j d' r
  end.

(** The documents at every position but [i]. *)
Fixpoint others (i : nat) (l : list QueueDocument) : list QueueDocument :=
  match l, i with
  | [], _ => []
  | _ :: r, O => r
  | d :: r, S j => d :: others j r
  end.

(** The unique sparse index on [ack] refuses a write that would give the
    document at position [i] an [ack] another document already has.  A write
    that leaves the document's [ack] as it was ([d] is the document before
    the write) does not touch the index. *)
Definition violates_ack_index (c : Collection) (i : nat)
  (d d' : QueueDocument) : bool :=
  ack_unique c &&
  match ack d' with
  | None => false
  | Some a => negb (ack_is a d) && existsb (ack_is a) (others i (docs c))
  end.

(** [col.findOneAndUpdate(query, update, { sort, returnDocument: 'after' })]:
    one atomic step; nothing is written when nothing matches or when the
    index refuses the write. *)
Definition findOneAndUpdate (c : Collection)
  (query : QueueDocument -> bool) (update : QueueDocument -> QueueDocument)
  (sort : QueueDocument -> QueueDocument -> bool)
  : result (option QueueDocument) * Collection :=
  match findOne query sort (docs c) with
  | None => (Ok None, c)
  | Some (i, d) =>
      let d' := update d in
      if violates_ack_index c i d d'
      then (Throw (DuplicateKey (nullish (ack d') EmptyString)), c)
      else (Ok (Some d'), with_docs c (replaceAt i d' (docs c)))
  end.

(** [col.insertOne({ visible, payload })]: the new document has only the two
    fields given and the identifier the store generates. *)
Definition insertOne (c : Collection) (v : time) (p : Payload)
  : ObjectId * Collection :=
  (next_id c,
   {| docs := docs c ++ [ {| _id := next_id c; visible := v; payload := p;
                             ack := None; tries := None; deleted := None |} ];
      next_id := S (next_id c);
      ack_unique := ack_unique c |}).

(** [col.countDocuments(query)]. *)
Definition countDocuments (c : Collection) (query : QueueDocument -> bool)
  : nat :=
  List.length (filter query (docs c)).

(** [col.deleteMany(query)]. *)
Definition deleteMany (c : Collection) (query : QueueDocument -> bool)
  : Collection :=
  with_docs c (filter (fun d => negb (query d)) (docs c)).

(** The [ack] values present in a list of documents. *)
Fixpoint acks (l : list QueueDocument) : list string :=
  match l with
  | [] => []
  | d :: r =>
      match ack d with
      | Some a => a :: acks r
      | None => acks r
      end
  end.

Fixpoint distinctb (l : list string) : bool :=
  match l with
  | [] => true
  | a :: r => negb (existsb (String.eqb a) r) && distinctb r
  end.

(** ** The methods of [Queue] *)

(** [createIndexes()]: the compound index on [deleted] and [visible] only
    speeds queries up; the unique sparse index on [ack] is built unless the
    collection already holds two documents with one [ack]. *)
Definition createIndexes (q : Queue) (c : Collection)
  : result unit * Collection :=
  if distinctb (acks (docs c))
  then (Ok tt, {| docs := docs c; next_id := next_id c; ack_unique := true |})
  else (Throw (DuplicateKey "ack"), c).

(** [add(payload, opts)]. *)
Definition add (q : Queue) (clock : time) (p : Payload)
  (opts : option QueueAddOptions) (c : Collection)
  : result ObjectId * Collection :=
  let delay := nullish (chain opts ao_delay) (delay q) in
  let visible := if Z.eqb delay 0 then now clock else nowPlusSecs clock delay in
  let '(insertedId, c') := insertOne c visible p in
  (Ok insertedId, c').

(** The external representation [get] returns. *)
Record Message := mkMessage {
  msg_id : ObjectId;
  msg_ack : option string;
  msg_payload : Payload;
  msg_tries : option nat
}.

Definition get_query (clock : time) (d : QueueDocument) : bool :=
  is_null (deleted d) && Z.leb (visible d) (now clock).

(** [$inc: { tries: 1 }] creates the field at 1 when it is missing. *)
Definition inc_tries (t : option nat) : option nat :=
  match t with
  | None => Some 1%nat
  | Some n => Some (S n)
  end.

Definition get_update (clock : time) (tok : string) (visibility : Z)
  (d : QueueDocument) : QueueDocument :=
  {| _id := _id d;
     visible := nowPlusSecs clock visibility;
     payload := payload d;
     ack := Some tok;
     tries := inc_tries (tries d);
     deleted := deleted d |}.

(** [get(opts)]; [tok] is what [id()] returns in this call.  [maxTimeMS]
    only bounds how long the store may take; it changes no result. *)
Definition get (q : Queue) (clock : time) (tok : string)
  (opts : option QueueGetOptions) (c : Collection)
  : result (option Message) * Collection :=
  let visibility := nullish (chain opts go_visibility) (visibility q) in
  match findOneAndUpdate c (get_query clock)
          (get_update clock tok visibility) by_tries_then_id with
  | (Throw e, c') => (Throw e, c')
  | (Ok None, c') => (Ok None, c')
  | (Ok (Some r), c') =>
      (Ok (Some {| msg_id := _id r; msg_ack := ack r;
                   msg_payload := payload r; msg_tries := tries r |}), c')
  end.

(** The filter [ping] and [ack] share. *)
Definition lease_query (clock : time) (a : string) (d : QueueDocument)
  : bool :=
  ack_is a d && Z.ltb (now clock) (visible d) && is_null (deleted d).

Definition ping_update (clock : time) (visibility : Z) (d : QueueDocument)
  : QueueDocument :=
  {| _id := _id d;
     visible := nowPlusSecs clock visibility;
     payload := payload d;
     ack := ack d;
     tries := tries d;
     deleted := deleted d |}.

(** [ping(ack, opts)]. *)
Definition ping (q : Queue) (clock : time) (a : string)
  (opts : option QueuePingOptions) (c : Collection)
  : result ObjectId * Collection :=
  let visibility := nullish (chain opts po_visibility) (visibility q) in
  match findOneAndUpdate c (lease_query clock a)
          (ping_update clock visibility) natural_order with
  | (Throw e, c') => (Throw e, c')
  | (Ok None, c') =>
      (Throw (JsError ("Queue.ping(): Unidentified ack  : " ++ a)), c')
  | (Ok (Some msg), c') => (Ok (_id msg), c')
  end.

Definition ack_update (clock : time) (d : QueueDocument) : QueueDocument :=
  {| _id := _id d;
     visible := visible d;
     payload := payload d;
     ack := ack d;
     tries := tries d;
     deleted := Some (Some (now clock)) |}.

(** [ack(ack)]; named [ack_] because [ack] is the document's field. *)
Definition ack_ (q : Queue) (clock : time) (a : string) (c : Collection)
  : result ObjectId * Collection :=
  match findOneAndUpdate c (lease_query clock a)
          (ack_update clock) natural_order with
  | (Throw e, c') => (Throw e, c')
  | (Ok None, c') =>
      (Throw (JsError ("Queue.ack(): Unidentified ack : " ++ a)), c')
  | (Ok (Some msg), c') => (Ok (_id msg), c')
  end.

Definition done_query (d : QueueDocument) : bool := field_exists (deleted d).

(** [clean()]. *)
Definition clean (q : Queue) (c : Collection) : Collection :=
  deleteMany c done_query.

(** [total()]: [countDocuments()] without a filter. *)
Definition total (q : Queue) (c : Collection) : nat :=
  countDocuments c (fun _ => true).

(** [size()]. *)
Definition size (q : Queue) (clock : time) (c : Collection) : nat :=
  countDocuments c (get_query clock).

Definition inFlight_query (clock : time) (d : QueueDocument) : bool :=
  field_exists (ack d) && Z.ltb (now clock) (visible d) && is_null (deleted d).

(** [inFlight()]. *)
Definition inFlight (q : Queue) (clock : time) (c : Collection) : nat :=
  countDocuments c (inFlight_query clock).

(** [done()]. *)
Definition done (q : Queue) (c : Collection) : nat :=
  countDocuments c done_query.

(** ** Histories *)

(** One call of a method by some client. *)
Inductive Op :=
| OpCreateIndexes
| OpAdd (p : Payload) (opts : option QueueAddOptions)
| OpGet (tok : string) (opts : option QueueGetOptions)
| OpPing (a : string) (opts : option QueuePingOptions)
| OpAck (a : string)
| OpClean.

(** The collection a call leaves behind, whether it returned or threw. *)
Definition step (q : Queue) (clock : time) (o : Op) (c : Collection)
  : Collection :=
  match o with
  | OpCreateIndexes => snd (createIndexes q c)
  | OpAdd p opts => snd (add q clock p opts c)
  | OpGet tok opts => snd (get q clock tok opts c)
  | OpPing a opts => snd (ping q clock a opts c)
  | OpAck a => snd (ack_ q clock a c)
  | OpClean => clean q c
  end.

(** A collection that does not exist yet. *)
Definition empty : Collection :=
  {| docs := []; next_id := O; ack_unique := false |}.

(** The states a queue goes through: [createIndexes] is run once on the
    fresh collection, then clients (each with a [Queue] object of its own
    configuration) call methods at arbitrary instants. *)
Inductive reachable : Collection -> Prop :=
| reach_init : forall q, reachable (snd (createIndexes q empty))
| reach_step : forall q clock o c,
    reachable c -> reachable (step q clock o c).

(** The collections reachable from a given one. *)
Inductive reachable_from (c0 : Collection) : Collection -> Prop :=
| from_here : reachable_from c0 c0
| from_step : forall q clock o c,
    reachable_from c0 c -> reachable_from c0 (step q clock o c).

(** *** Predicates the statements use *)

(** Eligible for [get] at [clock]: the spec's "available". *)
Definition available (clock : time) (d : QueueDocument) : Prop :=
  is_null (deleted d) = true /\ visible d <= clock.

(** Holding a live lease at [clock]: the spec's "in-flight". *)
Definition in_flight (clock : time) (d : QueueDocument) : Prop :=
  ack d <> None /\ clock < visible d /\ is_null (deleted d) = true.


(** What holds of every reachable collection. *)
Record well_formed (c : Collection) : Prop := mk_well_formed {
  wf_index : ack_unique c = true;
  wf_acks : NoDup (acks (docs c));
  wf_ids : NoDup (map _id (docs c));
  wf_next : forall d, In d (docs c) -> (_id d < next_id c)%nat;
  wf_deleted : forall d, In d (docs c) -> deleted d <> Some None;
  wf_tries : forall d, In d (docs c) ->
      (ack d = None <-> tries d = None) /\ tries d <> Some O;
  wf_done : forall d, In d (docs c) -> deleted d <> None -> ack d <> None
}.




(** A completed message stays completed, and its identifier is not given
    to another message, whatever is called afterwards. *)
Definition completed_for_good (id : ObjectId) (c : Collection) : Prop :=
  (id < next_id c)%nat /\
  forall x, In x (docs c) -> _id x = id -> is_null (deleted x) = false.

End WithPayload.

Unset Implicit Arguments.

Arguments empty : clear implicits.
Arguments _id {Payload} q.
Arguments by_tries_then_id {Payload} a b.
Arguments natural_order {Payload} a b.
Arguments done_query {Payload} d.
Arguments OpCreateIndexes {Payload}.
Arguments OpGet {Payload} tok opts.
Arguments OpPing {Payload} a opts.
Arguments OpAck {Payload} a.
Arguments OpClean {Payload}.

(** ** A small history, for the examples *)

(** The queue of the README: default options. *)
Definition jobs : Queue :=
  {| name := "jobs"; visibility := 30; delay := 0 |}.

(** The fresh collection, indexes created. *)
Definition jobs_fresh : Collection string :=
  snd (createIndexes jobs (empty string)).

(** One message added at second 1 ... *)
Definition jobs_added : Collection string :=
  step jobs 1000 (OpAdd "x"%string None) jobs_fresh.

(** ... claimed at second 2, so leased until second 32 ... *)
Definition jobs_claimed : Collection string :=
  step jobs 2000 (OpGet "a1" None) jobs_added.

(** ... and completed at second 3. *)
Definition jobs_done : Collection string :=
  step jobs 3000 (OpAck "a1") jobs_claimed.

(** One message added at second 1 with a delay of five seconds. *)
Definition jobs_delayed : Collection string :=
  step jobs 1000 (OpAdd "later"%string (Some {| ao_delay := Some 5 |}))
    jobs_fresh.

(** A retried message and two new ones: the first was claimed at second 2
    and its lease ran out; two more were added at seconds 40 and 41. *)
Definition jobs_three : Collection string :=
  step jobs 41000 (OpAdd "z"%string None)
    (step jobs 40000 (OpAdd "y"%string None) jobs_claimed).

(** Replays the history that defines one of the collections above. *)
Ltac run_history :=
  unfold jobs_three, jobs_done, jobs_claimed, jobs_added, jobs_delayed,
    jobs_fresh;
  repeat apply reach_step; apply reach_init.

(** Unfolds the counts over a collection whose documents are given by
    [Hl], with [Hw] counting through the one position that is written. *)
Ltac count_write Hl Hw :=
  unfold total, size, inFlight, done, countDocuments; simpl;
  rewrite ?Hl, ?Hw.

(** * Properties *)

Section Properties.

Variable Payload : Type.

Implicit Types (c : Collection Payload) (d e x : QueueDocument Payload).
Implicit Types (l r : list (QueueDocument Payload)) (m : Message Payload).
Implicit Types (p : Payload) (o : Op Payload).

(** ** Lists: the picked position *)

Lemma findOne_None : forall query before l,
  findOne query before l = None <->
  (forall d, In d l -> query d = false).
Proof.
  intros query before l; induction l as [|d r IH]; simpl.
  - split; [intros _ d [] | reflexivity].
  - destruct (findOne query before r) as [[i e]|].
    + split.
      * destruct (query d && negb (before e d)); discriminate.
      * intros H. assert (Hr : forall x, In x r -> query x = false)
          by (intros x Hx; apply H; now right).
        apply IH in Hr. discriminate.
    + destruct (query d) eqn:Hq.
      * split; [discriminate|]. intros H.
        rewrite (H d (or_introl eq_refl)) in Hq. discriminate.
      * split; [|reflexivity]. intros _ x [<-|Hx]; [assumption|].
        now apply (proj1 IH).
Qed.

Lemma findOne_Some : forall query before l i d,
  findOne query before l = Some (i, d) ->
  nth_error l i = Some d /\ query d = true.
Proof.
  intros query before l; induction l as [|x r IH]; simpl; intros i d H.
  - discriminate.
  - destruct (findOne query before r) as [[j e]|].
    + destruct (query x && negb (before e x)) eqn:Hc.
      * inversion H; subst. apply andb_true_iff in Hc. now split.
      * inversion H; subst. simpl. now apply IH.
    + destruct (query x) eqn:Hq; [|discriminate].
      inversion H; subst. now split.
Qed.

Lemma by_tries_then_id_rank : forall (a b : QueueDocument Payload),
  by_tries_then_id a b = true <->
  (rank a < rank b \/ (rank a = rank b /\ _id a < _id b))%nat.
Proof.
  intros a b. unfold by_tries_then_id, rank, tries_lt, tries_eq.
  destruct (tries a) as [x|], (tries b) as [y|]; simpl;
    rewrite ?orb_true_iff, ?andb_true_iff, ?Nat.ltb_lt, ?Nat.eqb_eq;
    try lia.
Qed.

Lemma by_tries_then_id_false : forall (a b : QueueDocument Payload),
  by_tries_then_id a b = false <->
  (rank b < rank a \/ (rank a = rank b /\ _id b <= _id a))%nat.
Proof.
  intros a b. destruct (by_tries_then_id a b) eqn:H.
  - apply by_tries_then_id_rank in H. split; [discriminate|lia].
  - split; [intros _|reflexivity].
    destruct (Nat.lt_trichotomy (rank a) (rank b)) as [Hl|[He|Hg]].
    + assert (by_tries_then_id a b = true)
        by (apply by_tries_then_id_rank; lia). congruence.
    + destruct (Nat.le_gt_cases (_id b) (_id a)); [lia|].
      assert (by_tries_then_id a b = true)
        by (apply by_tries_then_id_rank; lia). congruence.
    + lia.
Qed.

(** What [get] picks has no matching document before it in the sort. *)
Lemma findOne_sorted_min : forall query l i d,
  findOne query by_tries_then_id l = Some (i, d) ->
  forall e, In e l -> query e = true -> by_tries_then_id e d = false.
Proof.
  intros query l; induction l as [|x r IH]; simpl; intros i d H e He Hq.
  - destruct He.
  - destruct (findOne query by_tries_then_id r) as [[j b]|] eqn:Hr.
    + destruct (query x && negb (by_tries_then_id b x)) eqn:Hc.
      * inversion H; subst. apply andb_true_iff in Hc as [_ Hc].
        apply negb_true_iff in Hc.
        destruct He as [<-|He].
        -- apply by_tries_then_id_false; lia.
        -- specialize (IH _ _ eq_refl e He Hq).
           apply by_tries_then_id_false in IH, Hc.
           apply by_tries_then_id_false; lia.
      * inversion H; subst. destruct He as [<-|He].
        -- rewrite Hq in Hc. simpl in Hc. apply negb_false_iff in Hc.
           apply by_tries_then_id_rank in Hc.
           apply by_tries_then_id_false; lia.
        -- now apply (IH _ _ eq_refl).
    + destruct (query x) eqn:Hx; [|discriminate]. inversion H; subst.
      destruct He as [<-|He].
      * apply by_tries_then_id_false; lia.
      * rewrite (proj1 (findOne_None _ _ _) Hr e He) in Hq. discriminate.
Qed.

(** Of the documents the sort holds equal, the earliest is picked. *)
Lemma findOne_earliest : forall query before l i d,
  findOne query before l = Some (i, d) ->
  forall j e, nth_error l j = Some e -> query e = true ->
  before d e = false -> before e d = false -> (i <= j)%nat.
Proof.
  intros query before l; induction l as [|x r IH]; simpl;
    intros i d H j e Hj Hq H1 H2.
  - discriminate.
  - destruct (findOne query before r) as [[k b]|] eqn:Hr.
    + destruct (query x && negb (before b x)) eqn:Hc.
      * inversion H; subst. lia.
      * inversion H; subst. destruct j as [|j]; simpl in Hj.
        -- inversion Hj; subst. rewrite Hq, H1 in Hc. discriminate.
        -- specialize (IH _ _ eq_refl j e Hj Hq H1 H2). lia.
    + destruct (query x); [|discriminate]. inversion H; subst. lia.
Qed.

(** ** Lists: writing one position *)

Lemma nth_error_split_at : forall (l : list (QueueDocument Payload)) i d,
  nth_error l i = Some d ->
  exists l1 l2, l = l1 ++ d :: l2 /\ List.length l1 = i.
Proof.
  intros l i d H. apply nth_error_split in H as (l1 & l2 & -> & <-).
  now exists l1, l2.
Qed.

Lemma replaceAt_app : forall l1 d l2 d',
  replaceAt (List.length l1) d' (l1 ++ d :: l2) = l1 ++ d' :: l2.
Proof.
  induction l1 as [|x l1 IH]; simpl; intros; [reflexivity|].
  now rewrite IH.
Qed.

Lemma others_app : forall l1 d l2,
  others (List.length l1) (l1 ++ d :: l2) = l1 ++ l2.
Proof.
  induction l1 as [|x l1 IH]; simpl; intros; [reflexivity|].
  now rewrite IH.
Qed.

Lemma acks_app : forall l1 l2, acks (l1 ++ l2) = acks l1 ++ acks l2.
Proof.
  induction l1 as [|x l1 IH]; simpl; intros; [reflexivity|].
  rewrite IH. now destruct (ack x).
Qed.

Lemma acks_In : forall l a,
  In a (acks l) <-> exists d, In d l /\ ack d = Some a.
Proof.
  induction l as [|x l IH]; simpl; intros a.
  - split; [intros []|intros (d & [] & _)].
  - destruct (ack x) as [b|] eqn:Hx; simpl; rewrite IH.
    + split.
      * intros [<-|(d & Hd & Ha)]; [exists x|exists d]; auto.
      * intros (d & [<-|Hd] & Ha); [left; congruence|right; now exists d].
    + split.
      * intros (d & Hd & Ha). exists d; auto.
      * intros (d & [<-|Hd] & Ha); [congruence|now exists d].
Qed.

Lemma existsb_ack_is : forall a l,
  existsb (ack_is a) l = true <-> In a (acks l).
Proof.
  intros a l. rewrite existsb_exists, acks_In. unfold ack_is.
  split; intros (d & Hd & H); exists d; split; auto.
  - destruct (ack d); [|discriminate]. apply String.eqb_eq in H. now subst.
  - rewrite H. apply String.eqb_refl.
Qed.

Lemma NoDup_insert : forall (A : Type) (l1 l2 : list A) a,
  NoDup (l1 ++ l2) -> ~ In a (l1 ++ l2) -> NoDup (l1 ++ a :: l2).
Proof.
  intros A; induction l1 as [|x l1 IH]; simpl; intros l2 a Hn Hi.
  - now constructor.
  - inversion Hn; subst. constructor.
    + rewrite in_app_iff in *. simpl. intuition.
    + apply IH; auto.
Qed.

Lemma NoDup_acks_others : forall l1 (d : QueueDocument Payload) l2,
  NoDup (acks (l1 ++ d :: l2)) -> NoDup (acks (l1 ++ l2)).
Proof.
  intros l1 d l2. rewrite !acks_app. simpl.
  destruct (ack d); [|auto]. intros H. now apply NoDup_remove in H.
Qed.

Lemma acks_filter_In : forall f l a,
  In a (acks (filter f l)) -> In a (acks l).
Proof.
  intros f l a. rewrite !acks_In. intros (d & Hd & Ha).
  apply filter_In in Hd. exists d. tauto.
Qed.

Lemma NoDup_acks_filter : forall f l,
  NoDup (acks l) -> NoDup (acks (filter f l)).
Proof.
  intros f l; induction l as [|x l IH]; simpl; intros H; [constructor|].
  destruct (ack x) as [a|] eqn:Hx.
  - inversion H; subst. destruct (f x); simpl; [|auto].
    rewrite Hx. constructor; auto.
    intros Hin. now apply acks_filter_In in Hin.
  - destruct (f x); simpl; [rewrite Hx|]; auto.
Qed.

Lemma NoDup_map_filter : forall (f : QueueDocument Payload -> bool) l,
  NoDup (map _id l) -> NoDup (map _id (filter f l)).
Proof.
  intros f l; induction l as [|x l IH]; simpl; intros H; [constructor|].
  inversion H; subst. destruct (f x); simpl; auto.
  constructor; auto. rewrite in_map_iff in *. intros (y & Hy & Hin).
  apply filter_In in Hin. apply H2. exists y. tauto.
Qed.

Lemma distinctb_NoDup : forall (l : list string),
  distinctb l = true <-> NoDup l.
Proof.
  induction l as [|a l IH]; simpl.
  - split; [constructor|reflexivity].
  - rewrite andb_true_iff, negb_true_iff, IH. split.
    + intros [H1 H2]. constructor; auto. intros Hin.
      assert (existsb (String.eqb a) l = true)
        by (apply existsb_exists; exists a; split;
            [assumption|apply String.eqb_refl]).
      congruence.
    + intros H; inversion H; subst. split; auto.
      destruct (existsb (String.eqb a) l) eqn:He; [|reflexivity].
      apply existsb_exists in He as (b & Hb & Hab).
      apply String.eqb_eq in Hab. now subst.
Qed.

(** ** The atomic step, case by case *)

(** [findOneAndUpdate] either finds nothing and writes nothing, or picks one
    document and then either is refused by the index, writing nothing, or
    rewrites that one document in place. *)
Lemma findOneAndUpdate_cases : forall c query update sort,
  (findOne query sort (docs c) = None /\
   findOneAndUpdate c query update sort = (Ok None, c)) \/
  (exists i d l1 l2,
     findOne query sort (docs c) = Some (i, d) /\
     docs c = l1 ++ d :: l2 /\ List.length l1 = i /\ query d = true /\
     ((violates_ack_index c i d (update d) = true /\
       findOneAndUpdate c query update sort
       = (Throw (DuplicateKey (nullish (ack (update d)) EmptyString)), c)) \/
      (violates_ack_index c i d (update d) = false /\
       findOneAndUpdate c query update sort
       = (Ok (Some (update d)), with_docs c (l1 ++ update d :: l2))))).
Proof.
  intros c query update sort. unfold findOneAndUpdate.
  destruct (findOne query sort (docs c)) as [[i d]|] eqn:Hf.
  - right. destruct (findOne_Some _ _ _ _ _ Hf) as [Hn Hq].
    destruct (nth_error_split_at _ _ _ Hn) as (l1 & l2 & Hl & Hi).
    exists i, d, l1, l2. repeat split; auto.
    destruct (violates_ack_index c i d (update d)); [left|right]; split; auto.
    rewrite Hl, <- Hi, replaceAt_app. reflexivity.
  - left. split; reflexivity.
Qed.

Lemma violates_ack_index_split : forall c l1 d l2 d',
  docs c = l1 ++ d :: l2 ->
  violates_ack_index c (List.length l1) d d' = false ->
  ack_unique c = true ->
  NoDup (acks (docs c)) ->
  forall a, ack d' = Some a -> ~ In a (acks (l1 ++ l2)).
Proof.
  intros c l1 d l2 d' Hl Hv Hu Hn a Ha. unfold violates_ack_index in Hv.
  rewrite Hu, Ha, Hl, others_app in Hv. simpl in Hv.
  apply andb_false_iff in Hv as [Hv|Hv].
  - apply negb_false_iff in Hv. unfold ack_is in Hv.
    destruct (ack d) as [b|] eqn:Hb; [|discriminate].
    apply String.eqb_eq in Hv. subst b.
    rewrite Hl, acks_app in Hn. simpl in Hn. rewrite Hb in Hn.
    apply NoDup_remove in Hn. now rewrite acks_app.
  - intros Hin. apply existsb_ack_is in Hin. congruence.
Qed.

(** A write that keeps the [ack] is never refused. *)
Lemma violates_ack_index_same : forall c i d d',
  ack d' = ack d -> violates_ack_index c i d d' = false.
Proof.
  intros c i d d' H. unfold violates_ack_index. rewrite H.
  destruct (ack_unique c); [simpl|reflexivity].
  unfold ack_is. destruct (ack d) as [a|]; [|reflexivity].
  now rewrite String.eqb_refl.
Qed.


(** ** Every reachable collection is well formed *)

Lemma well_formed_write : forall c l1 d l2 d',
  well_formed c ->
  docs c = l1 ++ d :: l2 ->
  _id d' = _id d ->
  (ack d' = ack d \/
   exists a, ack d' = Some a /\ ~ In a (acks (l1 ++ l2))) ->
  deleted d' <> Some None ->
  ((ack d' = None <-> tries d' = None) /\ tries d' <> Some O) ->
  (deleted d' <> None -> ack d' <> None) ->
  well_formed (with_docs c (l1 ++ d' :: l2)).
Proof.
  intros c l1 d l2 d' [Hu Ha Hi Hn Hd Ht Hc] Hl Hid Hack Hdel Htr Hdone.
  assert (Hin : forall x, In x (l1 ++ d' :: l2) -> x = d' \/ In x (docs c)).
  { intros x Hx. rewrite Hl. rewrite in_app_iff in *. simpl in *.
    intuition. }
  constructor; simpl; auto.
  - destruct Hack as [He|(a & He & Hf)].
    + rewrite Hl in Ha. rewrite acks_app in *. simpl in *.
      now rewrite He.
    + rewrite acks_app. simpl. rewrite He. apply NoDup_insert; auto.
      * rewrite <- acks_app. apply (NoDup_acks_others l1 d l2).
        now rewrite <- Hl.
      * now rewrite <- acks_app.
  - rewrite Hl in Hi. rewrite map_app in *. simpl in *. now rewrite Hid.
  - intros x Hx. destruct (Hin x Hx) as [->|Hx'].
    + rewrite Hid. apply Hn. rewrite Hl, in_app_iff. simpl. auto.
    + now apply Hn.
  - intros x Hx. destruct (Hin x Hx) as [->|Hx']; auto.
  - intros x Hx. destruct (Hin x Hx) as [->|Hx']; auto.
  - intros x Hx. destruct (Hin x Hx) as [->|Hx']; auto.
Qed.

Lemma well_formed_get : forall q clock tok opts c,
  well_formed c -> well_formed (snd (get q clock tok opts c)).
Proof.
  intros q clock tok opts c Hwf. unfold get.
  destruct (findOneAndUpdate_cases c (get_query clock)
    (get_update clock tok (nullish (chain opts go_visibility) (visibility q)))
    by_tries_then_id)
    as [[_ ->]|(i & d & l1 & l2 & _ & Hl & Hi & Hq & [[_ ->]|[Hv ->]])];
    simpl; auto.
  subst i. apply (well_formed_write c l1 d l2); auto; simpl.
  - right. exists tok. split; [reflexivity|].
    eapply violates_ack_index_split; eauto using wf_index, wf_acks.
  - apply (wf_deleted Hwf). rewrite Hl, in_app_iff. simpl. auto.
  - split; [split; [discriminate|]|]; destruct (tries d); discriminate.
  - discriminate.
Qed.

Lemma well_formed_ping : forall q clock a opts c,
  well_formed c -> well_formed (snd (ping q clock a opts c)).
Proof.
  intros q clock a opts c Hwf. unfold ping.
  destruct (findOneAndUpdate_cases c (lease_query clock a)
    (ping_update clock (nullish (chain opts po_visibility) (visibility q)))
    natural_order)
    as [[_ ->]|(i & d & l1 & l2 & _ & Hl & Hi & Hq & [[_ ->]|[Hv ->]])];
    simpl; auto.
  assert (Hd : In d (docs c)) by (rewrite Hl, in_app_iff; simpl; auto).
  apply (well_formed_write c l1 d l2); auto; simpl.
  - now apply (wf_deleted Hwf).
  - now apply (wf_tries Hwf).
  - now apply (wf_done Hwf).
Qed.

Lemma well_formed_ack : forall q clock a c,
  well_formed c -> well_formed (snd (ack_ q clock a c)).
Proof.
  intros q clock a c Hwf. unfold ack_.
  destruct (findOneAndUpdate_cases c (lease_query clock a)
    (ack_update clock) natural_order)
    as [[_ ->]|(i & d & l1 & l2 & _ & Hl & Hi & Hq & [[_ ->]|[Hv ->]])];
    simpl; auto.
  assert (Hd : In d (docs c)) by (rewrite Hl, in_app_iff; simpl; auto).
  apply (well_formed_write c l1 d l2); auto; simpl.
  - discriminate.
  - now apply (wf_tries Hwf).
  - intros _. unfold lease_query, ack_is in Hq.
    destruct (ack d); [discriminate|discriminate].
Qed.

Lemma well_formed_add : forall q clock p opts c,
  well_formed c -> well_formed (snd (add q clock p opts c)).
Proof.
  intros q clock p opts c [Hu Ha Hi Hn Hd Ht Hc]. unfold add. simpl.
  constructor; simpl; auto.
  - rewrite acks_app. simpl. now rewrite app_nil_r.
  - rewrite map_app. simpl. apply NoDup_insert; rewrite app_nil_r; auto.
    intros Hin. apply in_map_iff in Hin as (d & Hid & Hin).
    specialize (Hn d Hin). lia.
  - intros d Hin. apply in_app_iff in Hin as [Hin|[<-|[]]]; simpl.
    + specialize (Hn d Hin). lia.
    + lia.
  - intros d Hin. apply in_app_iff in Hin as [Hin|[<-|[]]]; simpl; auto.
    discriminate.
  - intros d Hin. apply in_app_iff in Hin as [Hin|[<-|[]]]; simpl; auto.
    split; [tauto|discriminate].
  - intros d Hin. apply in_app_iff in Hin as [Hin|[<-|[]]]; simpl; auto.
Qed.

Lemma well_formed_clean : forall q c,
  well_formed c -> well_formed (clean q c).
Proof.
  intros q c [Hu Ha Hi Hn Hd Ht Hc]. unfold clean, deleteMany.
  constructor; simpl; auto.
  - now apply NoDup_acks_filter.
  - now apply NoDup_map_filter.
  - intros d Hin. apply filter_In in Hin. now apply Hn.
  - intros d Hin. apply filter_In in Hin. now apply Hd.
  - intros d Hin. apply filter_In in Hin. now apply Ht.
  - intros d Hin. apply filter_In in Hin. now apply Hc.
Qed.

Lemma well_formed_createIndexes : forall q c,
  well_formed c -> well_formed (snd (createIndexes q c)).
Proof.
  intros q c Hwf. unfold createIndexes.
  destruct (distinctb (acks (docs c))); simpl; auto.
  destruct Hwf. now constructor.
Qed.

Lemma well_formed_step : forall q clock o c,
  well_formed c -> well_formed (step q clock o c).
Proof.
  intros q clock o c Hwf. destruct o; simpl.
  - now apply well_formed_createIndexes.
  - now apply well_formed_add.
  - now apply well_formed_get.
  - now apply well_formed_ping.
  - now apply well_formed_ack.
  - now apply well_formed_clean.
Qed.

Lemma reachable_well_formed : forall c, reachable c -> well_formed c.
Proof.
  intros c H; induction H as [q|q clock o c H IH].
  - simpl. constructor; simpl; try (intros d []); auto; constructor.
  - now apply well_formed_step.
Qed.

Lemma reachable_from_reachable : forall c0 c,
  reachable c0 -> reachable_from c0 c -> reachable c.
Proof.
  intros c0 c H0 H; induction H; [assumption|now constructor].
Qed.

(** Two documents of a collection with distinct [ack]s everywhere that carry
    the same [ack] are one document. *)
Lemma NoDup_acks_same : forall l d e a,
  NoDup (acks l) -> In d l -> In e l ->
  ack d = Some a -> ack e = Some a -> d = e.
Proof.
  induction l as [|x l IH]; simpl; intros d e a Hn Hd He Had Hae; [tauto|].
  assert (Hx : forall y, In y l -> ack y = Some a -> ack x = Some a -> False).
  { intros y Hy Hya Hxa. rewrite Hxa in Hn. inversion Hn; subst.
    apply H1. apply acks_In. now exists y. }
  destruct Hd as [<-|Hd], He as [<-|He]; auto.
  - exfalso; eauto.
  - exfalso; eauto.
  - apply (IH d e a); auto. destruct (ack x); [now inversion Hn|auto].
Qed.

Lemma NoDup_ids_same : forall (l : list (QueueDocument Payload)) d e,
  NoDup (map _id l) -> In d l -> In e l -> _id d = _id e -> d = e.
Proof.
  induction l as [|x l IH]; simpl; intros d e Hn Hd He Hid; [tauto|].
  inversion Hn; subst.
  destruct Hd as [<-|Hd], He as [<-|He]; auto.
  - exfalso. apply H1. rewrite Hid. now apply in_map.
  - exfalso. apply H1. rewrite <- Hid. now apply in_map.
Qed.

(** ** Identifiers follow the order of insertion *)






(** ** C1: one lease holder *)


(** ** What [get] does *)

Lemma get_query_available : forall clock d,
  get_query clock d = true <-> available clock d.
Proof.
  intros clock d. unfold get_query, available, now.
  rewrite andb_true_iff, Z.leb_le. tauto.
Qed.



(** The three ways a [get] can go: nothing available; the pick refused by
    the index; the pick rewritten in place and returned. *)
Lemma get_cases : forall q clock tok opts c,
  let vis := nullish (chain opts go_visibility) (visibility q) in
  ((forall d, In d (docs c) -> ~ available clock d) /\
   get q clock tok opts c = (Ok None, c)) \/
  (exists l1 d l2,
     docs c = l1 ++ d :: l2 /\ available clock d /\
     (forall e, In e (docs c) -> available clock e ->
        by_tries_then_id e d = false) /\
     ((violates_ack_index c (List.length l1) d (get_update clock tok vis d)
       = true /\
       get q clock tok opts c = (Throw (DuplicateKey tok), c)) \/
      (violates_ack_index c (List.length l1) d (get_update clock tok vis d)
       = false /\
       get q clock tok opts c
       = (Ok (Some {| msg_id := _id d; msg_ack := Some tok;
                      msg_payload := payload d;
                      msg_tries := inc_tries (tries d) |}),
          with_docs c (l1 ++ get_update clock tok vis d :: l2))))).
Proof.
  intros q clock tok opts c vis. unfold get. fold vis.
  destruct (findOneAndUpdate_cases c (get_query clock)
    (get_update clock tok vis) by_tries_then_id)
    as [[Hf ->]|(i & d & l1 & l2 & Hf & Hl & Hi & Hq & Hc)].
  - left. split; [|reflexivity]. intros d Hin Ha.
    apply get_query_available in Ha.
    rewrite (proj1 (findOne_None _ _ _) Hf d Hin) in Ha. discriminate.
  - right. exists l1, d, l2. subst i. split; [assumption|].
    split; [now apply get_query_available|]. split.
    + intros e Hin He. apply (findOne_sorted_min _ _ _ _ Hf e Hin).
      now apply get_query_available.
    + destruct Hc as [[Hv ->]|[Hv ->]]; [left|right]; split; auto.
Qed.

(** ** C2: what a claim selects, writes and returns *)


(** ** C3: what add inserts *)


(** ** C4: add, then claim *)


(** ** Where the documents of the next state come from *)

(** After any call, a document of the collection was there before, or is one
    that was there rewritten by the update of [get], [ping] or [ack] (it
    matched their filter), or is the one [add] inserted. *)
Lemma step_doc_origin : forall q clock o c x,
  In x (docs (step q clock o c)) ->
  In x (docs c) \/
  (exists d tok vis, In d (docs c) /\ get_query clock d = true /\
     x = get_update clock tok vis d) \/
  (exists d a opts vis, o = OpPing a opts /\ In d (docs c) /\
     lease_query clock a d = true /\ x = ping_update clock vis d) \/
  (exists d a, In d (docs c) /\ lease_query clock a d = true /\
     x = ack_update clock d) \/
  (exists v p, x = mkDoc (next_id c) v p None None None).
Proof.
  intros q clock o c x. destruct o; simpl.
  - unfold createIndexes. destruct (distinctb (acks (docs c))); simpl; auto.
  - unfold add. simpl. rewrite in_app_iff. simpl.
    intros [H|[<-|[]]]; [now left|]. do 4 right. eauto.
  - unfold get.
    destruct (findOneAndUpdate_cases c (get_query clock)
      (get_update clock tok
         (nullish (chain opts go_visibility) (visibility q)))
      by_tries_then_id)
      as [[_ ->]|(i & d & l1 & l2 & _ & Hl & Hi & Hq & [[_ ->]|[Hv ->]])];
      simpl; auto.
    rewrite Hl, !in_app_iff. simpl. intros [H|[<-|H]]; auto.
    right; left. exists d, tok. eexists. rewrite in_app_iff. simpl. eauto.
  - unfold ping.
    destruct (findOneAndUpdate_cases c (lease_query clock a)
      (ping_update clock (nullish (chain opts po_visibility) (visibility q)))
      natural_order)
      as [[_ ->]|(i & d & l1 & l2 & _ & Hl & Hi & Hq & [[_ ->]|[Hv ->]])];
      simpl; auto.
    rewrite Hl, !in_app_iff. simpl. intros [H|[<-|H]]; auto.
    right; right; left. exists d, a, opts. eexists. rewrite in_app_iff.
    simpl. repeat split; eauto.
  - unfold ack_.
    destruct (findOneAndUpdate_cases c (lease_query clock a)
      (ack_update clock) natural_order)
      as [[_ ->]|(i & d & l1 & l2 & _ & Hl & Hi & Hq & [[_ ->]|[Hv ->]])];
      simpl; auto.
    rewrite Hl, !in_app_iff. simpl. intros [H|[<-|H]]; auto.
    right; right; right; left. exists d, a. rewrite in_app_iff.
    simpl. eauto.
  - unfold clean, deleteMany. simpl. intros H. apply filter_In in H. tauto.
Qed.

Lemma step_next_id : forall q clock o c,
  (next_id c <= next_id (step q clock o c))%nat.
Proof.
  intros q clock o c. destruct o; simpl.
  - unfold createIndexes. destruct (distinctb (acks (docs c))); simpl; lia.
  - unfold add. simpl. lia.
  - unfold get.
    destruct (findOneAndUpdate_cases c (get_query clock)
      (get_update clock tok
         (nullish (chain opts go_visibility) (visibility q)))
      by_tries_then_id)
      as [[_ ->]|(i & d & l1 & l2 & _ & Hl & Hi & Hq & [[_ ->]|[Hv ->]])];
      simpl; lia.
  - unfold ping.
    destruct (findOneAndUpdate_cases c (lease_query clock a)
      (ping_update clock (nullish (chain opts po_visibility) (visibility q)))
      natural_order)
      as [[_ ->]|(i & d & l1 & l2 & _ & Hl & Hi & Hq & [[_ ->]|[Hv ->]])];
      simpl; lia.
  - unfold ack_.
    destruct (findOneAndUpdate_cases c (lease_query clock a)
      (ack_update clock) natural_order)
      as [[_ ->]|(i & d & l1 & l2 & _ & Hl & Hi & Hq & [[_ ->]|[Hv ->]])];
      simpl; lia.
  - simpl. lia.
Qed.

(** ** C5: completion is final *)

Lemma completed_for_good_step : forall id q clock o c,
  completed_for_good id c -> completed_for_good id (step q clock o c).
Proof.
  intros id q clock o c [Hlt Hdel]. split.
  - pose proof (step_next_id q clock o c). lia.
  - intros x Hx Hid.
    destruct (step_doc_origin q clock o c x Hx)
      as [H|[(d & tok & vis & Hd & Hq & ->)
         |[(d & a & po & vis & _ & Hd & Hq & ->)
         |[(d & a & Hd & Hq & ->)|(v & p & ->)]]]]; simpl in *.
    + now apply Hdel.
    + now apply Hdel.
    + now apply Hdel.
    + reflexivity.
    + lia.
Qed.

Lemma completed_for_good_from : forall id c c',
  reachable_from c c' -> completed_for_good id c -> completed_for_good id c'.
Proof.
  intros id c c' H; induction H; intros Hc; [assumption|].
  now apply completed_for_good_step, IHreachable_from.
Qed.

Lemma get_skips_completed : forall id q clock tok opts c m c',
  completed_for_good id c ->
  get q clock tok opts c = (Ok (Some m), c') -> msg_id m <> id.
Proof.
  intros id q clock tok opts c m c' [_ Hdel] Hg.
  destruct (get_cases q clock tok opts c)
    as [[_ He]|(l1 & d & l2 & Hl & [Ha _] & _ & [[_ He]|[_ He]])];
    rewrite He in Hg; try discriminate.
  inversion Hg; subst; simpl. intros Hid.
  rewrite (Hdel d) in Ha; [discriminate| |assumption].
  rewrite Hl, in_app_iff. simpl. auto.
Qed.

Lemma lease_query_spec : forall clock a d,
  lease_query clock a d = true <->
  ack d = Some a /\ clock < visible d /\ is_null (deleted d) = true.
Proof.
  intros clock a d. unfold lease_query, ack_is, now.
  rewrite !andb_true_iff, Z.ltb_lt. destruct (ack d) as [b|].
  - rewrite String.eqb_eq. split; [intros [[-> ?] ?]|intros ([= ->] & ? & ?)];
      auto.
  - split; [intros [[? ?] ?]|intros (? & ? & ?)]; discriminate.
Qed.


Lemma length_filter_write : forall (f : QueueDocument Payload -> bool) l1 d l2,
  List.length (filter f (l1 ++ d :: l2))
  = (List.length (filter f (l1 ++ l2)) + (if f d then 1 else 0))%nat.
Proof.
  intros f l1 d l2. rewrite !filter_app, !length_app. simpl.
  destruct (f d); simpl; lia.
Qed.

(** C5. In a reachable collection, when a [get] succeeds and an [ack] with
    the token it returned follows it and succeeds, the [ack] returns the
    identifier of the claimed message and stamps that message, left in its
    place with its other fields, as deleted at the instant of the [ack];
    the total is unchanged and the done count is one more; and in every
    collection reached from there by any calls, no [get] returns that
    identifier. *)
Theorem ack_completes_for_good :
  forall c q1 clock1 tok gopts m c1 q2 clock2 id c2,
  reachable c ->
  get q1 clock1 tok gopts c = (Ok (Some m), c1) ->
  ack_ q2 clock2 tok c1 = (Ok id, c2) ->
  id = msg_id m /\
  (exists l1 d l2,
     docs c1 = l1 ++ d :: l2 /\ _id d = id /\ deleted d = None /\
     docs c2 = l1 ++ {| _id := _id d; visible := visible d;
                        payload := payload d; ack := ack d;
                        tries := tries d;
                        deleted := Some (Some clock2) |} :: l2) /\
  total q2 c2 = total q2 c1 /\
  done q2 c2 = S (done q2 c1) /\
  (forall c3, reachable_from c2 c3 ->
   forall q3 clock3 tok3 opts3 m3 c4,
     get q3 clock3 tok3 opts3 c3 = (Ok (Some m3), c4) -> msg_id m3 <> id).
Proof.
  intros c q1 clock1 tok gopts m c1 q2 clock2 id c2 Hr Hg Ha.
  assert (Hr1 : reachable c1).
  { replace c1 with (step q1 clock1 (OpGet tok gopts) c)
      by (simpl; now rewrite Hg). now constructor. }
  pose proof (reachable_well_formed c1 Hr1) as Hwf1.
  assert (Hwf2 : well_formed c2).
  { replace c2 with (snd (ack_ q2 clock2 tok c1)) by now rewrite Ha.
    now apply well_formed_ack. }
  destruct (get_cases q1 clock1 tok gopts c)
    as [[_ He]|(k1 & b & k2 & Hk & _ & _ & [[_ He]|[_ He]])];
    rewrite He in Hg; try discriminate.
  inversion Hg; subst m c1; simpl in *. clear Hg He.
  unfold ack_ in Ha.
  destruct (findOneAndUpdate_cases
    (with_docs c (k1 ++ get_update clock1 tok
        (nullish (chain gopts go_visibility) (visibility q1)) b :: k2))
    (lease_query clock2 tok) (ack_update clock2) natural_order)
    as [[_ He]|(i & d & l1 & l2 & _ & Hl & Hi & Hq & [[Hv _]|[_ He]])].
  - rewrite He in Ha. discriminate.
  - rewrite violates_ack_index_same in Hv; [discriminate|reflexivity].
  - rewrite He in Ha. inversion Ha; subst id c2; simpl in *. clear Ha He.
    apply lease_query_spec in Hq as (Hack & Hvis & Hnull).
    assert (Hin : In d (l1 ++ d :: l2)) by (rewrite in_app_iff; simpl; auto).
    assert (Hd : d = get_update clock1 tok
        (nullish (chain gopts go_visibility) (visibility q1)) b).
    { apply (NoDup_acks_same (l1 ++ d :: l2) _ _ tok); auto.
      - rewrite <- Hl. apply (wf_acks Hwf1).
      - rewrite <- Hl, in_app_iff. simpl. auto. }
    assert (Hdel : deleted d = None).
    { pose proof (wf_deleted Hwf1 d) as Hn. simpl in Hn.
      rewrite Hl in Hn. specialize (Hn Hin).
      destruct (deleted d) as [[t|]|]; [discriminate|congruence|reflexivity]. }
    split; [now rewrite Hd|]. split; [|split; [|split]].
    + exists l1, d, l2. repeat split; auto.
    + unfold total, countDocuments. simpl. rewrite Hl.
      now rewrite !length_filter_write.
    + unfold done, countDocuments. simpl. rewrite Hl.
      rewrite !length_filter_write. unfold done_query. simpl.
      rewrite Hdel. simpl. lia.
    + intros c3 H3 q3 clock3 tok3 opts3 m3 c4.
      apply get_skips_completed.
      apply (completed_for_good_from (_id d) _ c3 H3). split; simpl.
      * apply (wf_next Hwf2 (ack_update clock2 d)). simpl.
        rewrite in_app_iff. simpl. auto.
      * intros x Hx Hid.
        rewrite (NoDup_ids_same _ x (ack_update clock2 d)
                   (wf_ids Hwf2) Hx); auto.
        simpl. rewrite in_app_iff. simpl. auto.
Qed.

(** ** C6: a token is accepted only while its lease is live *)


(** ** C8: purging twice *)

Lemma filter_twice : forall (f : QueueDocument Payload -> bool) l,
  filter f (filter f l) = filter f l.
Proof.
  intros f l; induction l as [|x l IH]; simpl; [reflexivity|].
  destruct (f x) eqn:Hx; simpl; [rewrite Hx, IH|]; auto.
Qed.

(** C8. For every collection, [clean] keeps, in their order and unchanged,
    exactly the messages without a [deleted] field and removes the others;
    a second [clean] right after the first changes nothing, so the total and
    the done count (which is 0) after it are those after the first. *)
Theorem clean_idempotent : forall q c,
  clean q (clean q c) = clean q c /\
  total q (clean q (clean q c)) = total q (clean q c) /\
  done q (clean q (clean q c)) = done q (clean q c) /\
  done q (clean q c) = O /\
  docs (clean q c) = filter (fun d => negb (field_exists (deleted d))) (docs c)
  /\
  (forall d, In d (docs (clean q c)) <-> In d (docs c) /\ deleted d = None).
Proof.
  intros q c.
  assert (H : clean q (clean q c) = clean q c).
  { unfold clean, deleteMany, with_docs. simpl. now rewrite filter_twice. }
  rewrite H. repeat split; auto.
  - unfold done, countDocuments, clean, deleteMany. simpl.
    induction (docs c) as [|x l IH]; simpl; [reflexivity|].
    destruct (done_query x) eqn:Hx; simpl; [|rewrite Hx]; auto.
  - simpl in H0. apply filter_In in H0. tauto.
  - simpl in H0. apply filter_In in H0 as [_ H0]. unfold done_query in H0.
    now destruct (deleted d).
  - intros [Hin Hd]. simpl. apply filter_In. split; auto.
    unfold done_query. now rewrite Hd.
Qed.

(** ** C7: an expired lease *)





(** ** C9: how long a token stays on its message *)

(** C9, as the code has it. In every reachable collection a message carries
    a lease token exactly when it has been claimed at least once, that is
    when its try count is set, and the count is then at least 1; a
    completed message carries one; a message in flight carries one; and no
    call takes the token off a message: the message of the same identifier
    after the call still carries a token.  The token therefore outlives
    the lease, and only the filter of [ping] and [ack] tells whether the
    lease is live. *)
Theorem lease_token_stays_after_lease : forall c,
  reachable c ->
  (forall d, In d (docs c) ->
     (ack d <> None <-> exists k, tries d = Some (S k)) /\
     (deleted d <> None -> ack d <> None) /\
     (forall clock, in_flight clock d -> ack d <> None)) /\
  (forall q clock o d d',
     In d (docs c) -> In d' (docs (step q clock o c)) -> _id d' = _id d ->
     ack d <> None -> ack d' <> None).
Proof.
  intros c Hr. pose proof (reachable_well_formed c Hr) as Hwf. split.
  - intros d Hin. destruct (wf_tries Hwf d Hin) as [Hiff Hz].
    split; [|split].
    + split.
      * intros Ha. destruct (tries d) as [[|k]|]; [congruence|eauto|].
        exfalso. apply Ha. now apply Hiff.
      * intros [k Hk] Ha. apply Hiff in Ha. congruence.
    + now apply (wf_done Hwf).
    + now intros clock [Ha _].
  - intros q clock o d d' Hd Hd' Hid Ha.
    assert (Hsame : forall y, In y (docs c) -> _id y = _id d -> y = d).
    { intros y Hy Hyd. apply (NoDup_ids_same (docs c)); auto using wf_ids. }
    destruct (step_doc_origin q clock o c d' Hd')
      as [H|[(y & tok & vis & Hy & Hq & ->)
         |[(y & a & po & vis & _ & Hy & Hq & ->)
         |[(y & a & Hy & Hq & ->)|(v & p & ->)]]]]; simpl in *.
    + now rewrite (Hsame d' H Hid).
    + discriminate.
    + now rewrite (Hsame y Hy Hid).
    + now rewrite (Hsame y Hy Hid).
    + pose proof (wf_next Hwf d Hd). lia.
Qed.

(** ** C10: messages still delayed *)



(** * Further properties of the methods *)

(** ** The methods, read backwards from their result *)



Lemma ack_result : forall q clock a c,
  ack_ q clock a c
  = match findOne (lease_query clock a) natural_order (docs c) with
    | None => (Throw (JsError ("Queue.ack(): Unidentified ack : " ++ a)), c)
    | Some (i, d) =>
        (Ok (_id d), with_docs c (replaceAt i (ack_update clock d) (docs c)))
    end.
Proof.
  intros q clock a c. unfold ack_, findOneAndUpdate.
  destruct (findOne (lease_query clock a) natural_order (docs c))
    as [[i d]|]; [|reflexivity].
  now rewrite violates_ack_index_same.
Qed.


Lemma ack_returned : forall q clock a c id c',
  ack_ q clock a c = (Ok id, c') ->
  exists l1 d l2,
    docs c = l1 ++ d :: l2 /\ lease_query clock a d = true /\ id = _id d /\
    c' = with_docs c (l1 ++ ack_update clock d :: l2).
Proof.
  intros q clock a c id c' H. rewrite ack_result in H.
  destruct (findOne (lease_query clock a) natural_order (docs c))
    as [[i d]|] eqn:Hf; [|discriminate].
  destruct (findOne_Some _ _ _ _ _ Hf) as [Hn Hq].
  destruct (nth_error_split_at _ _ _ Hn) as (l1 & l2 & Hl & Hi). subst i.
  exists l1, d, l2. inversion H; subst. repeat split; auto.
  rewrite Hl. now rewrite replaceAt_app.
Qed.


Lemma step_reachable : forall q clock o c,
  reachable c -> reachable (step q clock o c).
Proof. intros. now constructor. Qed.






Lemma index_kept_step : forall q clock o c,
  ack_unique c = true -> NoDup (acks (docs c)) ->
  ack_unique (step q clock o c) = true /\
  NoDup (acks (docs (step q clock o c))).
Proof.
  intros q clock o c Hu Hn. destruct o; simpl.
  - unfold createIndexes. destruct (distinctb (acks (docs c))); simpl; auto.
  - unfold add. simpl. rewrite acks_app. simpl. now rewrite app_nil_r.
  - unfold get.
    destruct (findOneAndUpdate_cases c (get_query clock)
      (get_update clock tok
         (nullish (chain opts go_visibility) (visibility q)))
      by_tries_then_id)
      as [[_ ->]|(i & d & l1 & l2 & _ & Hl & Hi & _ & [[_ ->]|[Hv ->]])];
      simpl; auto.
    split; [assumption|]. subst i. rewrite acks_app. simpl.
    apply NoDup_insert.
    + rewrite <- acks_app. apply (NoDup_acks_others l1 d l2).
      now rewrite <- Hl.
    + rewrite <- acks_app.
      eapply violates_ack_index_split; eauto.
  - unfold ping.
    destruct (findOneAndUpdate_cases c (lease_query clock a)
      (ping_update clock (nullish (chain opts po_visibility) (visibility q)))
      natural_order)
      as [[_ ->]|(i & d & l1 & l2 & _ & Hl & Hi & _ & [[_ ->]|[Hv ->]])];
      simpl; auto.
    split; [assumption|]. rewrite Hl in Hn. rewrite acks_app in *. exact Hn.
  - unfold ack_.
    destruct (findOneAndUpdate_cases c (lease_query clock a)
      (ack_update clock) natural_order)
      as [[_ ->]|(i & d & l1 & l2 & _ & Hl & Hi & _ & [[_ ->]|[Hv ->]])];
      simpl; auto.
    split; [assumption|]. rewrite Hl in Hn. rewrite acks_app in *. exact Hn.
  - unfold clean, deleteMany. simpl. split; [assumption|].
    now apply NoDup_acks_filter.
Qed.

(** ** The constructor *)

(** X1. The constructor throws its first error exactly when the database
    handle is missing, its second exactly when the handle is there and the
    name is empty, and otherwise builds the queue with the name given, the
    visibility option or 30, and the delay option or 0; an option given as
    0 is kept. *)
Theorem constructor_checks_db_then_name : forall db nm opts,
  (constructor db nm opts
   = Throw (JsError "mongodb-queue: provide a mongodb.MongoClient.db")
   <-> db = None) /\
  (constructor db nm opts
   = Throw (JsError "mongodb-queue: provide a queue name")
   <-> db <> None /\ nm = EmptyString) /\
  (forall q, constructor db nm opts = Ok q <->
     db <> None /\ nm <> EmptyString /\
     q = {| name := nm;
            visibility := nullish (chain opts qo_visibility) 30;
            delay := nullish (chain opts qo_delay) 0 |}) /\
  (forall v dl,
     opts = Some {| qo_visibility := Some v; qo_delay := Some dl |} ->
     db <> None -> nm <> EmptyString ->
     constructor db nm opts
     = Ok {| name := nm; visibility := v; delay := dl |}).
Proof.
  intros db nm opts. unfold constructor.
  destruct db as [h|]; destruct (String.eqb_spec nm EmptyString) as [He|He];
    repeat split; intros;
    repeat match goal with
           | H : _ /\ _ |- _ => destruct H
           end;
    subst; try discriminate; try congruence; try reflexivity.
Qed.

(** ** [createIndexes] *)

(** X2. [createIndexes] succeeds exactly when no two messages of the
    collection carry the same token; it then changes nothing but to put the
    unique index in place, and in every collection reached from there by
    any calls the tokens stay pairwise distinct.  When two messages carry
    one token it throws and leaves the collection as it was.  Calling it a
    second time changes nothing more. *)
Theorem createIndexes_keeps_tokens_distinct : forall q c,
  (NoDup (acks (docs c)) ->
   createIndexes q c
   = (Ok tt, {| docs := docs c; next_id := next_id c; ack_unique := true |})
   /\
   forall c', reachable_from (snd (createIndexes q c)) c' ->
     NoDup (acks (docs c'))) /\
  (~ NoDup (acks (docs c)) ->
   createIndexes q c = (Throw (DuplicateKey "ack"), c)) /\
  (forall q', snd (createIndexes q' (snd (createIndexes q c)))
              = snd (createIndexes q c)).
Proof.
  intros q c. unfold createIndexes.
  destruct (distinctb (acks (docs c))) eqn:Hd; simpl.
  - apply distinctb_NoDup in Hd. split; [|split].
    + intros _. split; [reflexivity|]. intros c' H.
      assert (Hi : ack_unique c' = true /\ NoDup (acks (docs c'))).
      { induction H; [simpl; auto|].
        destruct IHreachable_from. now apply index_kept_step. }
      apply Hi.
    + tauto.
    + intros q'. simpl.
      now rewrite (proj2 (distinctb_NoDup (acks (docs c))) Hd).
  - split; [|split].
    + intros Hn. apply distinctb_NoDup in Hn. congruence.
    + reflexivity.
    + intros q'. now rewrite Hd.
Qed.

(** ** What [get] refuses and what it never returns *)



(** ** How long a token is accepted *)





(** ** What each method does to the counts *)


(** X10. An [ack] that succeeds leaves [total] as it was and takes the
    message out of both other counts for good: at every instant, [size]
    plus [inFlight] is one less than it would have been; at the instant of
    the call it is [inFlight] that is one less. *)
Theorem ack_takes_one_message_out_of_flight :
  forall q0 q clock a c id c',
  ack_ q clock a c = (Ok id, c') ->
  total q0 c' = total q0 c /\
  size q0 clock c' = size q0 clock c /\
  inFlight q0 clock c = S (inFlight q0 clock c') /\
  (forall clock2,
     (size q0 clock2 c + inFlight q0 clock2 c
      = S (size q0 clock2 c' + inFlight q0 clock2 c'))%nat).
Proof.
  intros q0 q clock a c id c' Ha.
  destruct (ack_returned q clock a c id c' Ha)
    as (l1 & d & l2 & Hl & Hq & _ & ->).
  apply lease_query_spec in Hq as (Hack & Hlt & Hn).
  split; [now count_write Hl length_filter_write|].
  split; [|split; [|intros clock2]]; count_write Hl length_filter_write;
    unfold get_query, inFlight_query, ack_update, now; simpl;
    rewrite ?Hn, ?Hack; simpl; rewrite ?andb_false_r; simpl.
  - destruct (Z.leb_spec (visible d) clock); [lia|]. simpl. lia.
  - destruct (Z.ltb_spec clock (visible d)); [|lia]. simpl. lia.
  - destruct (Z.leb_spec (visible d) clock2),
             (Z.ltb_spec clock2 (visible d)); try lia; simpl; lia.
Qed.



Lemma filter_kept_by_clean : forall (f : QueueDocument Payload -> bool) l,
  (forall x, In x l -> f x = true -> done_query x = false) ->
  List.length (filter f (filter (fun d => negb (done_query d)) l))
  = List.length (filter f l).
Proof.
  intros f l; induction l as [|x l IH]; simpl; intros H; [reflexivity|].
  assert (IH' := IH (fun y Hy => H y (or_intror Hy))).
  destruct (done_query x) eqn:Hx; simpl.
  - destruct (f x) eqn:Hf; [|assumption].
    rewrite (H x (or_introl eq_refl) Hf) in Hx. discriminate.
  - destruct (f x); simpl; auto.
Qed.

(** X13. [clean] lowers [total] by exactly the [done] count, and in a
    reachable collection it changes neither [size] nor [inFlight] at any
    instant. *)
Theorem clean_removes_exactly_the_done :
  forall q0 q c,
  reachable c ->
  (total q0 (clean q c) + done q0 c = total q0 c)%nat /\
  forall clock,
    size q0 clock (clean q c) = size q0 clock c /\
    inFlight q0 clock (clean q c) = inFlight q0 clock c.
Proof.
  intros q0 q c Hr. pose proof (reachable_well_formed c Hr) as Hwf.
  assert (Hnull : forall x, In x (docs c) ->
                    is_null (deleted x) = true -> done_query x = false).
  { intros x Hx Hn. pose proof (wf_deleted Hwf x Hx). unfold done_query.
    destruct (deleted x) as [[t|]|]; [discriminate|congruence|reflexivity]. }
  split.
  - unfold total, done, countDocuments, clean, deleteMany. simpl. clear.
    induction (docs c) as [|x l IH]; simpl; [reflexivity|].
    destruct (done_query x); simpl; lia.
  - intros clock.
    unfold size, inFlight, countDocuments, clean, deleteMany. simpl.
    split; apply filter_kept_by_clean; intros x Hx Hf; apply Hnull; auto.
    + now apply get_query_available in Hf as [? _].
    + unfold inFlight_query in Hf. now apply andb_true_iff in Hf as [_ ?].
Qed.



(** ** What no call does to a message *)

(** X15. In a reachable collection, whatever is called, a message that is
    still there afterwards has the payload it had; its try count is what it
    was or one more; and if it was completed it is exactly as it was. *)
Theorem a_call_never_rewrites_a_message :
  forall q clock o c d d',
  reachable c ->
  In d (docs c) -> In d' (docs (step q clock o c)) -> _id d' = _id d ->
  payload d' = payload d /\
  (nullish (tries d) O <= nullish (tries d') O <= S (nullish (tries d) O))%nat
  /\
  (forall t, deleted d = Some (Some t) -> d' = d).
Proof.
  intros q clock o c d d' Hr Hd Hd' Hid.
  pose proof (reachable_well_formed c Hr) as Hwf.
  assert (Hsame : forall y, In y (docs c) -> _id y = _id d -> y = d).
  { intros y Hy Hyd. apply (NoDup_ids_same (docs c)); auto using wf_ids. }
  destruct (step_doc_origin q clock o c d' Hd')
    as [H|[(y & tok & vis & Hy & Hq & ->)
       |[(y & a & po & vis & _ & Hy & Hq & ->)
       |[(y & a & Hy & Hq & ->)|(v & p & ->)]]]]; simpl in *.
  - rewrite (Hsame d' H Hid). repeat split; auto; lia.
  - rewrite (Hsame y Hy Hid) in *. repeat split; auto.
    + destruct (tries d); simpl; lia.
    + destruct (tries d); simpl; lia.
    + intros t Ht. apply get_query_available in Hq as [Hn _].
      rewrite Ht in Hn. discriminate.
  - rewrite (Hsame y Hy Hid) in *. repeat split; auto; try lia.
    intros t Ht. apply lease_query_spec in Hq as (_ & _ & Hn).
    rewrite Ht in Hn. discriminate.
  - rewrite (Hsame y Hy Hid) in *. repeat split; auto; try lia.
    intros t Ht. apply lease_query_spec in Hq as (_ & _ & Hn).
    rewrite Ht in Hn. discriminate.
  - pose proof (wf_next Hwf d Hd). lia.
Qed.

Lemma write_keeps : forall l1 x l2 x' d,
  _id x' = _id x -> payload x' = payload x ->
  In d (l1 ++ x :: l2) ->
  exists d', In d' (l1 ++ x' :: l2) /\ _id d' = _id d /\
             payload d' = payload d.
Proof.
  intros l1 x l2 x' d Hi Hp Hd. apply in_app_iff in Hd as [Hd|[<-|Hd]].
  - exists d. rewrite in_app_iff. auto.
  - exists x'. rewrite in_app_iff. simpl. auto.
  - exists d. rewrite in_app_iff. simpl. auto.
Qed.

(** X16. No call loses a message: for every collection and every call, a
    message of the collection is still there afterwards, under its
    identifier and with its payload, unless the call is [clean] and the
    message has a completion time. *)
Theorem only_clean_removes_a_message :
  forall q clock o c d,
  In d (docs c) ->
  (o = OpClean -> deleted d = None) ->
  exists d', In d' (docs (step q clock o c)) /\ _id d' = _id d /\
             payload d' = payload d.
Proof.
  intros q clock o c d Hd Hc. destruct o; simpl.
  - exists d. unfold createIndexes.
    destruct (distinctb (acks (docs c))); simpl; auto.
  - exists d. unfold add. simpl. rewrite in_app_iff. auto.
  - unfold get.
    destruct (findOneAndUpdate_cases c (get_query clock)
      (get_update clock tok
         (nullish (chain opts go_visibility) (visibility q)))
      by_tries_then_id)
      as [[_ ->]|(i & x & l1 & l2 & _ & Hl & _ & _ & [[_ ->]|[_ ->]])];
      simpl; eauto.
    rewrite Hl in Hd. now apply (write_keeps l1 x l2).
  - unfold ping.
    destruct (findOneAndUpdate_cases c (lease_query clock a)
      (ping_update clock (nullish (chain opts po_visibility) (visibility q)))
      natural_order)
      as [[_ ->]|(i & x & l1 & l2 & _ & Hl & _ & _ & [[_ ->]|[_ ->]])];
      simpl; eauto.
    rewrite Hl in Hd. now apply (write_keeps l1 x l2).
  - unfold ack_.
    destruct (findOneAndUpdate_cases c (lease_query clock a)
      (ack_update clock) natural_order)
      as [[_ ->]|(i & x & l1 & l2 & _ & Hl & _ & _ & [[_ ->]|[_ ->]])];
      simpl; eauto.
    rewrite Hl in Hd. now apply (write_keeps l1 x l2).
  - exists d. unfold clean, deleteMany. simpl. split; [|auto].
    apply filter_In. split; [assumption|]. unfold done_query.
    now rewrite (Hc eq_refl).
Qed.

End Properties.

(** * The history of the README, run *)

Lemma jobs_added_reachable : reachable jobs_added.
Proof. run_history. Qed.

Lemma jobs_claimed_reachable : reachable jobs_claimed.
Proof. run_history. Qed.

Lemma jobs_done_reachable : reachable jobs_done.
Proof. run_history. Qed.

Lemma jobs_delayed_reachable : reachable jobs_delayed.
Proof. run_history. Qed.

Lemma jobs_three_reachable : reachable jobs_three.
Proof. run_history. Qed.

(** Add with no delay, one available; claim it, tries is 1; complete it,
    one done, none available, total still 1. *)
Example scenario_add_claim_complete :
  size jobs 1000 jobs_added = 1%nat /\
  get jobs 2000 "a1" None jobs_added
  = (Ok (Some {| msg_id := O; msg_ack := Some "a1"%string;
                 msg_payload := "x"%string; msg_tries := Some 1%nat |}),
     jobs_claimed) /\
  ack_ jobs 3000 "a1" jobs_claimed = (Ok O, jobs_done) /\
  done jobs jobs_done = 1%nat /\
  size jobs 3000 jobs_done = O /\
  total jobs jobs_done = 1%nat.
Proof. repeat split. Qed.

(** Add with a delay of five seconds: nothing to claim until they pass. *)
Example scenario_delayed_add :
  get jobs 1000 "a1" None jobs_delayed = (Ok None, jobs_delayed) /\
  size jobs 5999 jobs_delayed = O /\
  size jobs 6000 jobs_delayed = 1%nat /\
  fst (get jobs 6000 "a1" None jobs_delayed)
  = Ok (Some {| msg_id := O; msg_ack := Some "a1"%string;
                msg_payload := "later"%string; msg_tries := Some 1%nat |}).
Proof. repeat split. Qed.

(** A message never claimed goes before an older one being retried; a token
    another message carries is refused by the index and nothing is
    written. *)
Example scenario_fewest_tries_first :
  fst (get jobs 50000 "a2" None jobs_three)
  = Ok (Some {| msg_id := 1%nat; msg_ack := Some "a2"%string;
                msg_payload := "y"%string; msg_tries := Some 1%nat |}) /\
  get jobs 50000 "a1" None jobs_three
  = (Throw (DuplicateKey "a1"), jobs_three).
Proof. split; reflexivity. Qed.

(** What the unique index is for: on a collection [createIndexes] was never
    run on, the same drawn token lands on two messages. *)
Example scenario_without_index :
  acks (docs (step jobs 2000 (OpGet "a1" None)
               (step jobs 1500 (OpAdd "y"%string None)
                  (step jobs 1200 (OpGet "a1" None)
                     (step jobs 1000 (OpAdd "x"%string None)
                        (empty string))))))
  = ["a1"; "a1"]%string.
Proof. reflexivity. Qed.

(** * Instances of the theorems *)





Lemma ack_completes_for_good_witness :
  reachable jobs_added /\
  get jobs 2000 "a1" None jobs_added
  = (Ok (Some {| msg_id := O; msg_ack := Some "a1"%string;
                 msg_payload := "x"%string; msg_tries := Some 1%nat |}),
     jobs_claimed) /\
  ack_ jobs 3000 "a1" jobs_claimed = (Ok O, jobs_done) /\
  done jobs jobs_done = S (done jobs jobs_claimed) /\
  total jobs jobs_done = total jobs jobs_claimed.
Proof.
  assert (Hr : reachable jobs_added) by run_history.
  assert (Hg : get jobs 2000 "a1" None jobs_added
               = (Ok (Some {| msg_id := O; msg_ack := Some "a1"%string;
                              msg_payload := "x"%string;
                              msg_tries := Some 1%nat |}), jobs_claimed))
    by reflexivity.
  assert (Ha : ack_ jobs 3000 "a1" jobs_claimed = (Ok O, jobs_done))
    by reflexivity.
  repeat (split; [assumption|]).
  destruct (ack_completes_for_good string _ _ _ _ _ _ _ _ _ _ _ Hr Hg Ha)
    as (_ & _ & Ht & Hd & _).
  split; [exact Hd|exact Ht].
Defined.


Lemma lease_token_stays_after_lease_witness :
  reachable jobs_done /\
  forall d, In d (docs jobs_done) ->
    (ack d <> None <-> exists k, tries d = Some (S k)) /\
    (deleted d <> None -> ack d <> None) /\
    (forall clock, in_flight clock d -> ack d <> None).
Proof.
  assert (H : reachable jobs_done) by run_history.
  split; [exact H|].
  exact (proj1 (lease_token_stays_after_lease string jobs_done H)).
Defined.


(** * C9 as the spec words it *)

(** C9 as stated fails: the message claimed at second 2 still carries its
    token at second 32, when its lease has run out and it is available
    again, and it carries it after it is completed. *)
Lemma lease_token_only_while_leased_fails :
  ~ (forall (c : Collection string) clock d,
       reachable c -> In d (docs c) -> ack d <> None ->
       is_null (deleted d) = true /\ clock < visible d).
Proof.
  intros H.
  assert (Hr : reachable jobs_claimed) by run_history.
  destruct (H jobs_claimed 32000
              {| _id := O; visible := 32000; payload := "x"%string;
                 ack := Some "a1"%string; tries := Some 1%nat;
                 deleted := None |} Hr) as [_ Hlt].
  - simpl. auto.
  - discriminate.
  - simpl in Hlt. lia.
Qed.

(** * Instances of the further properties *)








Lemma ack_takes_one_message_out_of_flight_witness :
  ack_ jobs 3000 "a1" jobs_claimed = (Ok O, jobs_done) /\
  inFlight jobs 3000 jobs_claimed = S (inFlight jobs 3000 jobs_done).
Proof.
  assert (Ha : ack_ jobs 3000 "a1" jobs_claimed = (Ok O, jobs_done))
    by reflexivity.
  split; [exact Ha|].
  exact (proj1 (proj2 (proj2 (ack_takes_one_message_out_of_flight string
    jobs jobs 3000 "a1" jobs_claimed O jobs_done Ha)))).
Defined.


Lemma clean_removes_exactly_the_done_witness :
  reachable jobs_done /\
  (total jobs (clean jobs jobs_done) + done jobs jobs_done
   = total jobs jobs_done)%nat.
Proof.
  assert (Hr : reachable jobs_done) by run_history.
  split; [exact Hr|].
  exact (proj1 (clean_removes_exactly_the_done string jobs jobs jobs_done
                  Hr)).
Defined.


Lemma a_call_never_rewrites_a_message_witness :
  reachable jobs_added /\
  payload {| _id := O; visible := 32000; payload := "x"%string;
             ack := Some "a1"%string; tries := Some 1%nat;
             deleted := None |}
  = payload {| _id := O; visible := 1000; payload := "x"%string;
               ack := None; tries := None; deleted := @None (option time) |}.
Proof.
  assert (Hr : reachable jobs_added) by run_history.
  split; [exact Hr|].
  refine (proj1 (a_call_never_rewrites_a_message string jobs 2000
    (OpGet "a1" None) jobs_added _ _ Hr _ _ _)).
  - simpl. left. reflexivity.
  - simpl. left. reflexivity.
  - reflexivity.
Defined.

Lemma only_clean_removes_a_message_witness :
  exists d', In d' (docs (step jobs 4000 OpClean jobs_claimed)) /\
    _id d' = O /\ payload d' = "x"%string.
Proof.
  refine (only_clean_removes_a_message string jobs 4000 OpClean jobs_claimed
    {| _id := O; visible := 32000; payload := "x"%string;
       ack := Some "a1"%string; tries := Some 1%nat; deleted := None |}
    _ _).
  - simpl. auto.
  - reflexivity.
Defined.
